(** * libvips_compat: the symbol compatibility shim of src-tauri

    A verification development for [src-tauri/libvips_compat.c].  The
    translation unit defines three functions under names that libvips 8.17
    renamed or removed:

    - [vips_target_finish], which forwards to the external
      [vips_target_end];
    - [vips_rawsave_fd] and [vips_cache], which do nothing and return an
      error code.

    The C functions are embedded as programs over the primitive operations
    a C function can perform on the state it shares with the rest of the
    process (loads, stores, frees, descriptor writes, library failure).
    A program is a tree of such operations; it has a sequential semantics
    ([run]) and an interleaving semantics for several threads
    ([run_sched]). *)

From Stdlib Require Import ZArith List.
From stdpp Require Import base option list gmap.

Local Open Scope Z_scope.

(** ** C integers

    [int] is 32 bits wide on the targets of this shim (the libvips 8.18
    Windows binaries).  Values are kept as [Z] and wrapped explicitly. *)

Module CInt.

Definition bits : Z := 32.
Definition modulus : Z := 2 ^ bits.
Definition min_int : Z := - 2 ^ (bits - 1).
Definition max_int : Z := 2 ^ (bits - 1) - 1.

Definition in_range (z : Z) : Prop := min_int <= z <= max_int.

(** Two's complement wrap-around of a mathematical integer into [int]. *)
Definition wrap (z : Z) : Z := (z - min_int) mod modulus + min_int.

(** Unary minus of C, as in the expression [-1]. *)
Definition neg (z : Z) : Z := wrap (- z).

End CInt.

(** ** Values, addresses and the shared state *)

(** An address.  [VipsTarget *], [VipsImage *] and [VipsImage **] are all
    addresses: both struct types are incomplete in this translation unit,
    so a handle is never more than the address it holds. *)
Definition addr : Type := Z.

Definition NULL : addr := 0.

(** What a memory cell, or a slot of a variable-argument list, holds. *)
Inductive cval : Type :=
  | VInt (n : Z)
  | VPtr (a : addr).

(** The state a C function shares with the rest of the process: the
    objects in memory by address, and the open file descriptors with the
    bytes written to each so far. *)
Record World : Type := mkWorld {
  heap : gmap Z cval;
  files : gmap Z (list Z)
}.

(** The primitive operations on the shared state. *)
Inductive Op : Type :=
  | OpLoad (a : addr)
  | OpStore (a : addr) (v : cval)
  | OpFree (a : addr)
  | OpWrite (fd : Z) (bytes : list Z)
  | OpFail (code : Z).

Inductive Fault : Type :=
  | BadAccess (a : addr)
  | BadFd (fd : Z)
  | LibFail (code : Z).

(** One operation, performed atomically on the shared state. *)
Definition do_op (o : Op) (w : World) : Fault + cval * World :=
  match o with
  | OpLoad a =>
      match heap w !! a with
      | Some v => inr (v, w)
      | None => inl (BadAccess a)
      end
  | OpStore a v =>
      match heap w !! a with
      | Some _ => inr (VInt 0, mkWorld (<[a := v]> (heap w)) (files w))
      | None => inl (BadAccess a)
      end
  | OpFree a =>
      match heap w !! a with
      | Some _ => inr (VInt 0, mkWorld (delete a (heap w)) (files w))
      | None => inl (BadAccess a)
      end
  | OpWrite fd bytes =>
      match files w !! fd with
      | Some old => inr (VInt 0, mkWorld (heap w) (<[fd := old ++ bytes]> (files w)))
      | None => inl (BadFd fd)
      end
  | OpFail code => inl (LibFail code)
  end.

(** ** Programs *)

(** A C function body: it returns, or performs an operation and goes on
    with the value the operation produced. *)
Inductive Prog (A : Type) : Type :=
  | Ret (a : A)
  | Do (o : Op) (k : cval -> Prog A).

Arguments Ret {A} a.
Arguments Do {A} o k.

Fixpoint bind {A B : Type} (p : Prog A) (f : A -> Prog B) : Prog B :=
  match p with
  | Ret a => f a
  | Do o k => Do o (fun v => bind (k v) f)
  end.

#[global] Instance Prog_ret : MRet Prog := @Ret.
#[global] Instance Prog_bind : MBind Prog := fun A B f p => bind p f.

(** The expression statement [(void)x;]: the value of [x] is computed
    from the function's own parameter and thrown away. *)
Definition discard {A : Type} (x : A) : Prog unit := Ret tt.

(** *** Sequential semantics *)

(** How a run ended, the state it left, and the operations it performed,
    oldest first. *)
Record Result (A : Type) : Type := mkResult {
  outcome : Fault + A;
  final : World;
  trace : list Op
}.

Arguments mkResult {A} outcome final trace.
Arguments outcome {A} r.
Arguments final {A} r.
Arguments trace {A} r.

Definition logged {A : Type} (o : Op) (r : Result A) : Result A :=
  mkResult (outcome r) (final r) (o :: trace r).

Fixpoint run {A : Type} (p : Prog A) (w : World) : Result A :=
  match p with
  | Ret a => mkResult (inr a) w []
  | Do o k =>
      match do_op o w with
      | inl f => mkResult (inl f) w [o]
      | inr (v, w') => logged o (run (k v) w')
      end
  end.

(** *** Interleaving semantics

    Threads share the [World]; a schedule names, step by step, the thread
    that performs its next operation.  A thread that has returned, or an
    index that names no thread, makes the step a no-op. *)

Definition step_thread {A : Type} (i : nat) (ts : list (Prog A)) (w : World)
  : Fault + list (Prog A) * World :=
  match ts !! i with
  | Some (Do o k) =>
      match do_op o w with
      | inl f => inl f
      | inr (v, w') => inr (<[i := k v]> ts, w')
      end
  | _ => inr (ts, w)
  end.

Fixpoint run_sched {A : Type} (sched : list nat) (ts : list (Prog A)) (w : World)
  : Fault + list (Prog A) * World :=
  match sched with
  | [] => inr (ts, w)
  | i :: sched' =>
      match step_thread i ts w with
      | inl f => inl f
      | inr (ts', w') => run_sched sched' ts' w'
      end
  end.

(** What can be seen of a thread: the value it returned, if it has. *)
Definition returned {A : Type} (p : Prog A) : option A :=
  match p with
  | Ret a => Some a
  | Do _ _ => None
  end.

(** What can be seen of a concurrent run: the fault that stopped it, or
    the values the threads returned and the state they left. *)
Definition observe {A : Type} (r : Fault + list (Prog A) * World)
  : Fault + list (option A) * World :=
  match r with
  | inl f => inl f
  | inr (ts, w) => inr (returned <$> ts, w)
  end.

(** ** The translation unit *)

Section Shim.

(** [extern void vips_target_end(VipsTarget *target);] is defined by
    libvips, not here: any program may stand behind the name. *)
Variable vips_target_end : addr -> Prog unit.

(** [void vips_target_finish(VipsTarget *target)
     { vips_target_end(target); }] *)
Definition vips_target_finish (target : addr) : Prog unit :=
  vips_target_end target;;
  mret tt.

End Shim.

(** [int vips_rawsave_fd(VipsImage *in, int fd, ...)
     { (void)in; (void)fd; return -1; }] *)
Definition vips_rawsave_fd (in_ : addr) (fd : Z) (va : list cval) : Prog Z :=
  discard in_;;
  discard fd;;
  mret (CInt.neg 1).

(** [int vips_cache(VipsImage *in, VipsImage **out, ...)
     { (void)in; (void)out; return -1; }] *)
Definition vips_cache (in_ : addr) (out : addr) (va : list cval) : Prog Z :=
  discard in_;;
  discard out;;
  mret (CInt.neg 1).

(** *** The symbols the unit exports

    A call to the unit names one of its three symbols and gives the
    arguments; the variable-argument tail may be empty. *)

Inductive Call : Type :=
  | Call_target_finish (target : addr)
  | Call_rawsave_fd (in_ : addr) (fd : Z) (va : list cval)
  | Call_cache (in_ : addr) (out : addr) (va : list cval).

(** What a call hands back: nothing for the [void] function, an [int]
    for the other two. *)
Inductive RetVal : Type :=
  | RVoid
  | RInt (n : Z).

Definition invoke (vips_target_end : addr -> Prog unit) (c : Call) : Prog RetVal :=
  match c with
  | Call_target_finish target =>
      vips_target_finish vips_target_end target;; mret RVoid
  | Call_rawsave_fd in_ fd va =>
      n ← vips_rawsave_fd in_ fd va; mret (RInt n)
  | Call_cache in_ out va =>
      n ← vips_cache in_ out va; mret (RInt n)
  end.

(** The unit as its specification words it: every function maps its
    arguments to the forwarded call or to the sentinel.  This definition
    follows the specification, not the source; [invoke] is compared with
    it below. *)
Definition forwarded_or_sentinel (vips_target_end : addr -> Prog unit) (c : Call)
  : Prog RetVal :=
  match c with
  | Call_target_finish target => vips_target_end target;; mret RVoid
  | Call_rawsave_fd _ _ _ => mret (RInt (-1))
  | Call_cache _ _ _ => mret (RInt (-1))
  end.

Definition is_stub (c : Call) : bool :=
  match c with
  | Call_target_finish _ => false
  | Call_rawsave_fd _ _ _ => true
  | Call_cache _ _ _ => true
  end.

(** A caller making one call after the other, keeping what each handed
    back. *)
Fixpoint call_all (f : Call -> Prog RetVal) (cs : list Call) : Prog (list RetVal) :=
  match cs with
  | [] => mret []
  | c :: cs' => r ← f c; rs ← call_all f cs'; mret (r :: rs)
  end.

(** ** Comparing programs and results *)

(** Two programs are the same tree of operations.  (Plain equality would
    need extensionality for the continuations.) *)
Inductive peq {A : Type} : Prog A -> Prog A -> Prop :=
  | peq_Ret (a : A) : peq (Ret a) (Ret a)
  | peq_Do (o : Op) (k k' : cval -> Prog A) :
      (forall v, peq (k v) (k' v)) -> peq (Do o k) (Do o k').

(** Two concurrent runs stopped on the same fault, or left the same state
    and threads that are the same trees. *)
Inductive conc_eq {A : Type}
  : Fault + list (Prog A) * World -> Fault + list (Prog A) * World -> Prop :=
  | conc_eq_fault (f : Fault) : conc_eq (inl f) (inl f)
  | conc_eq_pool (ts ts' : list (Prog A)) (w : World) :
      Forall2 peq ts ts' -> conc_eq (inr (ts, w)) (inr (ts', w)).

(** The result of a run followed by what the continuation does from the
    state the run left; a fault ends it there. *)
Definition and_then {A B : Type} (r : Result A) (k : A -> World -> Result B)
  : Result B :=
  match outcome r with
  | inl f => mkResult (inl f) (final r) (trace r)
  | inr a =>
      mkResult (outcome (k a (final r))) (final (k a (final r)))
               (trace r ++ trace (k a (final r)))
  end.

(** ** Clients of the unit

    The unit exists for code that was compiled against the old names (the
    generated binding): such a client performs operations of its own and
    calls the unit's symbols, going on with what each call hands back. *)
Inductive Client (A : Type) : Type :=
  | Done (a : A)
  | Own (o : Op) (k : cval -> Client A)
  | Calls (c : Call) (k : RetVal -> Client A).

Arguments Done {A} a.
Arguments Own {A} o k.
Arguments Calls {A} c k.

(** Resolving the client's references against definitions of the three
    symbols, as the linker does when the archive comes first on the link
    line. *)
Fixpoint link {A : Type} (f : Call -> Prog RetVal) (cl : Client A) : Prog A :=
  match cl with
  | Done a => Ret a
  | Own o k => Do o (fun v => link f (k v))
  | Calls c k => bind (f c) (fun r => link f (k r))
  end.

(** A client that does nothing but call the two stubs, whatever it makes
    of the statuses. *)
Inductive only_stubs {A : Type} : Client A -> Prop :=
  | only_stubs_Done (a : A) : only_stubs (Done a)
  | only_stubs_Calls (c : Call) (k : RetVal -> Client A) :
      is_stub c = true -> (forall r, only_stubs (k r)) -> only_stubs (Calls c k).

(** The value a client ends with when every call hands back [r]. *)
Fixpoint answer_with {A : Type} (r : RetVal) (cl : Client A) : option A :=
  match cl with
  | Done a => Some a
  | Own _ _ => None
  | Calls _ k => answer_with r (k r)
  end.

(** A concurrent run with one more thread, [p], after the others. *)
Definition beside {A : Type} (p : Prog A) (r : Fault + list (Prog A) * World)
  : Fault + list (Prog A) * World :=
  match r with
  | inl f => inl f
  | inr (ts, w) => inr (ts ++ [p], w)
  end.

(** ** A stand-in for the library

    libvips is not part of this unit.  The examples below run the
    forwarder against this stand-in for [vips_target_end]: the target
    object is one cell holding 0 while the target is open; ending it
    writes a trailer byte to descriptor 3 and sets the cell to 1, and
    ending a target that is not open is a library failure. *)

Module Sample.

Definition target_end (target : addr) : Prog unit :=
  Do (OpLoad target) (fun state =>
    match state with
    | VInt 0 =>
        Do (OpWrite 3 [255]) (fun _ =>
          Do (OpStore target (VInt 1)) (fun _ => Ret tt))
    | _ => Do (OpFail 2) (fun _ => Ret tt)
    end).

(** An open target at address 64, an image at 128, an empty output
    slot at 136, and descriptor 3 with one byte written. *)
Definition world0 : World :=
  mkWorld (<[64 := VInt 0]> (<[128 := VInt 7]> (<[136 := VPtr NULL]> ∅)))
          (<[3 := [1]]> ∅).

End Sample.

(** A client for the examples: it tries the cache operation and, on any
    status but 0, falls back to the raw save and ends with its status. *)
Module SampleClient.

Definition fallback : Client Z :=
  Calls (Call_cache 128 136 []) (fun r =>
    match r with
    | RInt 0 => Done 0
    | _ =>
        Calls (Call_rawsave_fd 128 3 []) (fun r' =>
          match r' with
          | RInt n => Done n
          | RVoid => Done 0
          end)
    end).

End SampleClient.

(** ** Facts about programs *)

Lemma neg_one : CInt.neg 1 = -1.
Proof. reflexivity. Qed.

Lemma neg_one_in_range : CInt.in_range (CInt.neg 1).
Proof. rewrite neg_one. unfold CInt.in_range. split; discriminate. Qed.

Lemma peq_refl {A : Type} (p : Prog A) : peq p p.
Proof. induction p as [a | o k IH]; constructor; assumption. Qed.

Lemma peq_sym {A : Type} (p q : Prog A) : peq p q -> peq q p.
Proof. induction 1; constructor; assumption. Qed.

Lemma peq_trans {A : Type} (p q r : Prog A) : peq p q -> peq q r -> peq p r.
Proof.
  intros Hpq. revert r.
  induction Hpq as [a | o k k' _ IH]; intros r Hqr.
  - assumption.
  - inversion Hqr as [| o' k1 k2 Hk]; subst.
    constructor. intros v. apply IH, Hk.
Qed.

(** Returning at the end of a body adds nothing to the tree. *)
Lemma bind_ret_unit (p : Prog unit) : peq (bind p (fun _ => Ret tt)) p.
Proof.
  induction p as [[] | o k IH]; simpl.
  - constructor.
  - constructor. exact IH.
Qed.

Lemma bind_bind {A B C : Type} (p : Prog A) (f : A -> Prog B) (g : B -> Prog C) :
  peq (bind (bind p f) g) (bind p (fun a => bind (f a) g)).
Proof.
  induction p as [a | o k IH]; simpl.
  - apply peq_refl.
  - constructor. exact IH.
Qed.

Lemma bind_peq {A B : Type} (p q : Prog A) (f g : A -> Prog B) :
  peq p q -> (forall a, peq (f a) (g a)) -> peq (bind p f) (bind q g).
Proof.
  intros Hpq Hfg.
  induction Hpq as [a | o k k' _ IH]; simpl.
  - apply Hfg.
  - constructor. exact IH.
Qed.

(** Programs that are the same tree run the same. *)
Lemma run_peq {A : Type} (p q : Prog A) :
  peq p q -> forall w, run p w = run q w.
Proof.
  induction 1 as [a | o k k' _ IH]; intros w; simpl.
  - reflexivity.
  - destruct (do_op o w) as [f | [v w']]; [reflexivity |].
    rewrite IH. reflexivity.
Qed.

(** The run of a sequence is the run of its first part, then the rest. *)
Lemma run_bind {A B : Type} (p : Prog A) (f : A -> Prog B) (w : World) :
  run (bind p f) w = and_then (run p w) (fun a => run (f a)).
Proof.
  revert w. induction p as [a | o k IH]; intros w; simpl.
  - unfold and_then; simpl. destruct (run (f a) w); reflexivity.
  - destruct (do_op o w) as [e | [v w']]; [reflexivity |].
    rewrite IH. unfold and_then, logged; simpl.
    destruct (outcome (run (k v) w')); reflexivity.
Qed.

(** The forwarder is the tree of the function it calls. *)
Lemma finish_peq (E : addr -> Prog unit) (target : addr) :
  peq (vips_target_finish E target) (E target).
Proof. apply bind_ret_unit. Qed.

Lemma finish_run (E : addr -> Prog unit) (target : addr) (w : World) :
  run (vips_target_finish E target) w = run (E target) w.
Proof. apply run_peq, finish_peq. Qed.

(** Each stub is the tree that only returns. *)
Lemma rawsave_fd_tree (in_ : addr) (fd : Z) (va : list cval) :
  vips_rawsave_fd in_ fd va = Ret (-1).
Proof. reflexivity. Qed.

Lemma cache_tree (in_ out : addr) (va : list cval) :
  vips_cache in_ out va = Ret (-1).
Proof. reflexivity. Qed.

(** *** Facts about interleavings *)

Lemma returned_peq {A : Type} (p q : Prog A) : peq p q -> returned p = returned q.
Proof. destruct 1; reflexivity. Qed.

Lemma returned_pool {A : Type} (ts ts' : list (Prog A)) :
  Forall2 peq ts ts' -> returned <$> ts = returned <$> ts'.
Proof.
  induction 1 as [| p q ts ts' Hpq _ IH].
  - reflexivity.
  - rewrite !fmap_cons, (returned_peq p q Hpq), IH. reflexivity.
Qed.

Lemma pool_refl {A : Type} (ts : list (Prog A)) : Forall2 peq ts ts.
Proof. induction ts; constructor; [apply peq_refl | assumption]. Qed.

Lemma pool_insert {A : Type} (ts ts' : list (Prog A)) (i : nat) (p q : Prog A) :
  Forall2 peq ts ts' -> peq p q -> Forall2 peq (<[i := p]> ts) (<[i := q]> ts').
Proof.
  intros Hts Hpq. revert i.
  induction Hts as [| a b ts ts' Hab Htl IH]; intros i.
  - constructor.
  - destruct i as [| i]; simpl.
    + constructor; assumption.
    + constructor; [assumption | apply IH].
Qed.

Lemma pool_lookup {A : Type} (ts ts' : list (Prog A)) (i : nat) :
  Forall2 peq ts ts' ->
  match ts !! i, ts' !! i with
  | Some p, Some q => peq p q
  | None, None => True
  | _, _ => False
  end.
Proof.
  intros Hts. revert i.
  induction Hts as [| a b ts ts' Hab _ IH]; intros i.
  - destruct i; exact I.
  - destruct i as [| i]; simpl; [exact Hab | apply IH].
Qed.

Lemma step_thread_peq {A : Type} (i : nat) (ts ts' : list (Prog A)) (w : World) :
  Forall2 peq ts ts' -> conc_eq (step_thread i ts w) (step_thread i ts' w).
Proof.
  intros Hts. unfold step_thread.
  pose proof (pool_lookup ts ts' i Hts) as Hi.
  destruct (ts !! i) as [p |], (ts' !! i) as [q |]; try contradiction.
  - destruct Hi as [a | o k k' Hk].
    + constructor. exact Hts.
    + destruct (do_op o w) as [f | [v w']]; constructor.
      apply pool_insert; [exact Hts | apply Hk].
  - constructor. exact Hts.
Qed.

Lemma run_sched_peq {A : Type} (sched : list nat) (ts ts' : list (Prog A)) (w : World) :
  Forall2 peq ts ts' -> conc_eq (run_sched sched ts w) (run_sched sched ts' w).
Proof.
  revert ts ts' w.
  induction sched as [| i sched IH]; intros ts ts' w Hts; simpl.
  - constructor. exact Hts.
  - destruct (step_thread_peq i ts ts' w Hts) as [f | us us' w' Hus].
    + constructor.
    + apply IH, Hus.
Qed.

Lemma observe_conc_eq {A : Type} (r r' : Fault + list (Prog A) * World) :
  conc_eq r r' -> observe r = observe r'.
Proof.
  destruct 1 as [f | ts ts' w Hts]; simpl.
  - reflexivity.
  - rewrite (returned_pool ts ts' Hts). reflexivity.
Qed.

(** Threads that have all returned stay as they are, whatever the
    schedule. *)
Lemma run_sched_returned {A : Type} (sched : list nat) (ts : list (Prog A)) (w : World) :
  Forall (fun p => exists a, p = Ret a) ts -> run_sched sched ts w = inr (ts, w).
Proof.
  intros Hts. induction sched as [| i sched IH]; simpl.
  - reflexivity.
  - unfold step_thread.
    destruct (ts !! i) as [p |] eqn:Hi; [| exact IH].
    rewrite Forall_lookup in Hts.
    destruct (Hts i p Hi) as [a ->]. exact IH.
Qed.

(** *** Facts about the exported symbols *)

Lemma invoke_peq (E : addr -> Prog unit) (c : Call) :
  peq (invoke E c) (forwarded_or_sentinel E c).
Proof.
  destruct c as [target | in_ fd va | in_ out va]; simpl.
  - apply (bind_peq (vips_target_finish E target) (E target)).
    + apply finish_peq.
    + intros a. apply peq_refl.
  - apply peq_refl.
  - apply peq_refl.
Qed.

Lemma call_all_peq (f g : Call -> Prog RetVal) (cs : list Call) :
  (forall c, peq (f c) (g c)) -> peq (call_all f cs) (call_all g cs).
Proof.
  intros Hfg. induction cs as [| c cs IH]; simpl.
  - apply peq_refl.
  - apply (bind_peq (f c) (g c)); [apply Hfg |].
    intros r. apply (bind_peq (call_all f cs) (call_all g cs)); [exact IH |].
    intros rs. apply peq_refl.
Qed.

Lemma invoke_stub (E : addr -> Prog unit) (c : Call) :
  is_stub c = true -> invoke E c = Ret (RInt (-1)).
Proof. destruct c; [discriminate | reflexivity | reflexivity]. Qed.

(** A thread that forwards and goes on is the thread that calls the
    library function and goes on. *)
Lemma finish_then_peq {A : Type} (E : addr -> Prog unit) (target : addr) (k : Prog A) :
  peq (vips_target_finish E target;; k) (E target;; k).
Proof.
  apply (bind_peq (vips_target_finish E target) (E target)).
  - apply finish_peq.
  - intros a. apply peq_refl.
Qed.

(** ** The forwarder *)

(** C1: for every target handle [h] and whatever program stands behind
    [vips_target_end], calling [vips_target_finish] with [h] is the call
    of [vips_target_end] with the same [h]: the two are the same tree of
    operations, and from every state they end the same way (the [void]
    return, or the same fault), leave the same state and perform the same
    operations in the same order. *)
Theorem vips_target_finish_equiv (vips_target_end : addr -> Prog unit) (h : addr) :
  peq (vips_target_finish vips_target_end h) (vips_target_end h) /\
  forall w : World,
    run (vips_target_finish vips_target_end h) w = run (vips_target_end h) w.
Proof.
  split.
  - apply finish_peq.
  - intros w. apply finish_run.
Qed.

(** C5: the forwarder fails exactly when [vips_target_end] fails, and with
    the same fault; it succeeds exactly when [vips_target_end] succeeds;
    either way the state left behind and the operations performed are
    those of [vips_target_end], so no failure is caught, translated,
    masked or added. *)
Theorem vips_target_finish_propagates_failure
    (vips_target_end : addr -> Prog unit) (h : addr) (w : World) :
  (forall f : Fault,
      outcome (run (vips_target_finish vips_target_end h) w) = inl f <->
      outcome (run (vips_target_end h) w) = inl f) /\
  (outcome (run (vips_target_finish vips_target_end h) w) = inr tt <->
   outcome (run (vips_target_end h) w) = inr tt) /\
  final (run (vips_target_finish vips_target_end h) w)
    = final (run (vips_target_end h) w) /\
  trace (run (vips_target_finish vips_target_end h) w)
    = trace (run (vips_target_end h) w).
Proof.
  rewrite finish_run. repeat split; intros H; exact H.
Qed.

(** ** The stubs *)

(** C2: there is one negative status that [vips_rawsave_fd] returns for
    every image handle, file descriptor and variable-argument tail (the
    empty one included) and from every state; the call performs no
    operation and leaves the whole state as it was, in particular the
    object at the image handle and the bytes of the file descriptor. *)
Theorem vips_rawsave_fd_sentinel :
  exists s : Z, s < 0 /\
    forall (in_ : addr) (fd : Z) (va : list cval) (w : World),
      run (vips_rawsave_fd in_ fd va) w = mkResult (inr s) w [] /\
      run (vips_rawsave_fd in_ fd []) w = mkResult (inr s) w [] /\
      heap (final (run (vips_rawsave_fd in_ fd va) w)) !! in_ = heap w !! in_ /\
      files (final (run (vips_rawsave_fd in_ fd va) w)) !! fd = files w !! fd.
Proof.
  exists (-1). split; [reflexivity |].
  intros in_ fd va w. rewrite !rawsave_fd_tree. simpl. auto.
Qed.

(** C3: for every image handle and every output slot, [vips_cache]
    leaves the cell of the output slot as it was, performs no store to it
    (it performs no operation at all), changes nothing else in the state,
    and returns a negative status. *)
Theorem vips_cache_out_unwritten (in_ out : addr) (va : list cval) (w : World) :
  heap (final (run (vips_cache in_ out va) w)) !! out = heap w !! out /\
  (forall v : cval, OpStore out v ∉ trace (run (vips_cache in_ out va) w)) /\
  (exists s : Z, s < 0 /\ outcome (run (vips_cache in_ out va) w) = inr s) /\
  final (run (vips_cache in_ out va) w) = w /\
  trace (run (vips_cache in_ out va) w) = [].
Proof.
  rewrite cache_tree. simpl. repeat split.
  - intros v Hv. inversion Hv.
  - exists (-1). split; reflexivity.
Qed.

(** C7: both stubs return exactly -1, for every input and from every
    state, so they share one sentinel; it is the value of the C expression
    [-1] and lies in the range of [int]. *)
Theorem stubs_return_minus_one
    (in1 : addr) (fd : Z) (va1 : list cval)
    (in2 out : addr) (va2 : list cval) (w1 w2 : World) :
  outcome (run (vips_rawsave_fd in1 fd va1) w1) = inr (-1) /\
  outcome (run (vips_cache in2 out va2) w2) = inr (-1) /\
  outcome (run (vips_rawsave_fd in1 fd va1) w1)
    = outcome (run (vips_cache in2 out va2) w2) /\
  CInt.neg 1 = -1 /\
  CInt.in_range (-1).
Proof.
  rewrite rawsave_fd_tree, cache_tree. simpl.
  repeat split; discriminate.
Qed.

(** C8: the stubs return for every argument value and from every state,
    never with a fault: with null handles and a null output slot, and in
    a state where nothing is allocated and no descriptor is open, the
    sentinel is still returned and no operation is performed. *)
Theorem stubs_total_and_safe
    (in_ : addr) (fd : Z) (out : addr) (va : list cval) (w : World) :
  run (vips_rawsave_fd in_ fd va) w = mkResult (inr (-1)) w [] /\
  run (vips_cache in_ out va) w = mkResult (inr (-1)) w [] /\
  (forall f : Fault, outcome (run (vips_rawsave_fd in_ fd va) w) <> inl f) /\
  (forall f : Fault, outcome (run (vips_cache in_ out va) w) <> inl f) /\
  run (vips_rawsave_fd NULL fd va) w = mkResult (inr (-1)) w [] /\
  run (vips_cache NULL NULL va) w = mkResult (inr (-1)) w [] /\
  run (vips_rawsave_fd in_ fd va) (mkWorld ∅ ∅) = mkResult (inr (-1)) (mkWorld ∅ ∅) [] /\
  run (vips_cache in_ out va) (mkWorld ∅ ∅) = mkResult (inr (-1)) (mkWorld ∅ ∅) [].
Proof.
  rewrite ?rawsave_fd_tree, ?cache_tree. simpl.
  repeat split; intros f Hf; discriminate Hf.
Qed.

(** ** All three functions *)

(** C4: whichever symbol is called, the handles are only passed on or
    dropped.  The forwarder is the call of [vips_target_end] on the very
    handle it was given, whatever that function is, and performs no
    operation besides those of that call; with a callee that does nothing
    it performs none.  A stub is the program that only returns: it
    performs no operation (no load, store or free, so no dereference,
    copy, mutation, release, retention or alias of a handle) and leaves
    the state as it was, whatever the handles are. *)
Theorem handles_passed_or_dropped
    (vips_target_end : addr -> Prog unit) (c : Call) (w : World) :
  match c with
  | Call_target_finish target =>
      peq (vips_target_finish vips_target_end target) (vips_target_end target) /\
      run (invoke vips_target_end c) w
        = run (vips_target_end target;; mret RVoid) w /\
      run (vips_target_finish (fun _ => Ret tt) target) w = mkResult (inr tt) w []
  | Call_rawsave_fd _ _ _ | Call_cache _ _ _ =>
      invoke vips_target_end c = Ret (RInt (-1)) /\
      final (run (invoke vips_target_end c) w) = w /\
      trace (run (invoke vips_target_end c) w) = []
  end.
Proof.
  destruct c as [target | in_ fd va | in_ out va].
  - split; [apply finish_peq |]. split; [| reflexivity].
    apply run_peq. apply (invoke_peq vips_target_end (Call_target_finish target)).
  - repeat split.
  - repeat split.
Qed.

(** C6: every function of the unit is a single mapping from its arguments
    to the forwarded call or to the sentinel, and keeps no state of its
    own.  Each call is the same tree as the specification's mapping and
    runs the same from every state; so does every sequence of calls, which
    means that an earlier call reaches a later one only through what
    [vips_target_end] did to the state.  A stub hands back -1 from any two
    states and leaves each as it was, and two calls of the forwarder in a
    row are two calls of [vips_target_end] in a row. *)
Theorem shim_stateless_single_step (vips_target_end : addr -> Prog unit) :
  (forall c : Call,
      peq (invoke vips_target_end c) (forwarded_or_sentinel vips_target_end c)) /\
  (forall (c : Call) (w : World),
      run (invoke vips_target_end c) w
        = run (forwarded_or_sentinel vips_target_end c) w) /\
  (forall (cs : list Call) (w : World),
      run (call_all (invoke vips_target_end) cs) w
        = run (call_all (forwarded_or_sentinel vips_target_end) cs) w) /\
  (forall (in_ : addr) (fd : Z) (va : list cval) (w1 w2 : World),
      run (invoke vips_target_end (Call_rawsave_fd in_ fd va)) w1
        = mkResult (inr (RInt (-1))) w1 [] /\
      run (invoke vips_target_end (Call_rawsave_fd in_ fd va)) w2
        = mkResult (inr (RInt (-1))) w2 []) /\
  (forall (in_ out : addr) (va : list cval) (w1 w2 : World),
      run (invoke vips_target_end (Call_cache in_ out va)) w1
        = mkResult (inr (RInt (-1))) w1 [] /\
      run (invoke vips_target_end (Call_cache in_ out va)) w2
        = mkResult (inr (RInt (-1))) w2 []) /\
  (forall (h : addr) (w : World),
      run (vips_target_finish vips_target_end h;;
           vips_target_finish vips_target_end h) w
        = run (vips_target_end h;; vips_target_end h) w).
Proof.
  split; [apply invoke_peq |].
  split; [intros c w; apply run_peq, invoke_peq |].
  split; [intros cs w; apply run_peq, call_all_peq, invoke_peq |].
  split; [intros; split; reflexivity |].
  split; [intros; split; reflexivity |].
  intros h w. apply run_peq.
  apply (bind_peq (vips_target_finish vips_target_end h) (vips_target_end h)).
  - apply finish_peq.
  - intros _. apply finish_peq.
Qed.

(** ** Several threads *)

(** C9: under every interleaving of the threads' operations, a thread
    that calls a stub and goes on runs as the thread that goes on with -1:
    the stub adds no step on the shared state, with no lock or other
    coordination in the model.  When every thread calls a stub, every
    schedule ends with each thread holding -1 and the state as it was.
    A thread that calls [vips_target_finish] and goes on cannot be told,
    under any schedule and beside any other threads, from the thread that
    calls [vips_target_end] and goes on: the forwarder is as thread-safe
    as the function it forwards to, no more and no less. *)
Theorem shim_thread_safety (vips_target_end : addr -> Prog unit) :
  (forall (A : Type) (ts : list (Prog A)) (i : nat) (k : Z -> Prog A)
          (in_ : addr) (fd : Z) (va : list cval) (sched : list nat) (w : World),
      run_sched sched (<[i := n ← vips_rawsave_fd in_ fd va; k n]> ts) w
        = run_sched sched (<[i := k (-1)]> ts) w) /\
  (forall (A : Type) (ts : list (Prog A)) (i : nat) (k : Z -> Prog A)
          (in_ out : addr) (va : list cval) (sched : list nat) (w : World),
      run_sched sched (<[i := n ← vips_cache in_ out va; k n]> ts) w
        = run_sched sched (<[i := k (-1)]> ts) w) /\
  (forall (cs : list Call) (sched : list nat) (w : World),
      Forall (fun c => is_stub c = true) cs ->
      observe (run_sched sched (invoke vips_target_end <$> cs) w)
        = inr ((fun _ => Some (RInt (-1))) <$> cs, w)) /\
  (forall (A : Type) (ts : list (Prog A)) (i : nat) (k : Prog A)
          (h : addr) (sched : list nat) (w : World),
      observe (run_sched sched (<[i := vips_target_finish vips_target_end h;; k]> ts) w)
        = observe (run_sched sched (<[i := vips_target_end h;; k]> ts) w)).
Proof.
  split; [reflexivity |].
  split; [reflexivity |].
  split.
  - intros cs sched w Hcs.
    rewrite run_sched_returned.
    + simpl. f_equal. f_equal.
      induction Hcs as [| c cs Hc _ IH]; [reflexivity |].
      rewrite !fmap_cons, IH, (invoke_stub _ c Hc). reflexivity.
    + induction Hcs as [| c cs Hc _ IH]; [constructor |].
      rewrite fmap_cons. constructor; [| exact IH].
      exists (RInt (-1)). apply invoke_stub, Hc.
  - intros A ts i k h sched w.
    apply observe_conc_eq, run_sched_peq, pool_insert.
    + apply pool_refl.
    + apply finish_then_peq.
Qed.

(** ** Concrete runs against the stand-in *)

(** Forwarding the end of an open target: the trailer byte is written and
    the target is marked ended, as in the direct call. *)
Example finish_open_target :
  run (vips_target_finish Sample.target_end 64) Sample.world0
    = mkResult (inr tt)
        (mkWorld (<[64 := VInt 1]> (heap Sample.world0)) (<[3 := [1; 255]]> ∅))
        [OpLoad 64; OpWrite 3 [255]; OpStore 64 (VInt 1)]
  /\ run (vips_target_finish Sample.target_end 64) Sample.world0
       = run (Sample.target_end 64) Sample.world0.
Proof. split; vm_compute; reflexivity. Qed.

(** Forwarding with a null handle faults where the direct call faults. *)
Example finish_null_target :
  outcome (run (vips_target_finish Sample.target_end NULL) Sample.world0)
    = inl (BadAccess 0)
  /\ outcome (run (Sample.target_end NULL) Sample.world0) = inl (BadAccess 0).
Proof. split; reflexivity. Qed.

(** Ending a target twice is the library's failure, passed on as it is. *)
Example finish_twice :
  outcome (run (vips_target_finish Sample.target_end 64;;
                vips_target_finish Sample.target_end 64) Sample.world0)
    = inl (LibFail 2)
  /\ trace (run (vips_target_finish Sample.target_end 64;;
                 vips_target_finish Sample.target_end 64) Sample.world0)
    = [OpLoad 64; OpWrite 3 [255]; OpStore 64 (VInt 1); OpLoad 64; OpFail 2].
Proof. split; vm_compute; reflexivity. Qed.

(** The stubs on live and on dangling arguments. *)
Example rawsave_fd_live :
  run (vips_rawsave_fd 128 3 [VInt 640; VInt 480; VPtr NULL]) Sample.world0
    = mkResult (inr (-1)) Sample.world0 [].
Proof. reflexivity. Qed.

Example cache_dangling :
  run (vips_cache 4096 NULL []) Sample.world0
    = mkResult (inr (-1)) Sample.world0 [].
Proof. reflexivity. Qed.

(** Three threads under one schedule.  The stub thread holds -1 from the
    start.  Both forwarder threads load the target's cell before either
    stores to it, so the trailer is written twice: the stand-in is not
    safe to call from two threads on one target, and the forwarder is
    unsafe in the same way as the direct call, step for step. *)
Example three_threads_race :
  observe (run_sched [0; 1; 1; 0; 2; 1; 0; 2; 2]%nat
             [ vips_target_finish Sample.target_end 64;; mret 5;
               vips_cache 128 136 [];
               vips_target_finish Sample.target_end 64;; mret 6 ]
             Sample.world0)
    = inr ([Some 5; Some (-1); Some 6],
           mkWorld (<[64 := VInt 1]> (heap Sample.world0))
                   (<[3 := [1; 255; 255]]> ∅))
  /\ observe (run_sched [0; 1; 1; 0; 2; 1; 0; 2; 2]%nat
                [ Sample.target_end 64;; mret 5;
                  mret (-1);
                  Sample.target_end 64;; mret 6 ]
                Sample.world0)
    = inr ([Some 5; Some (-1); Some 6],
           mkWorld (<[64 := VInt 1]> (heap Sample.world0))
                   (<[3 := [1; 255; 255]]> ∅)).
Proof. split; vm_compute; reflexivity. Qed.

(** One forwarder thread after the other: the second call meets the
    library's failure, which stops the run. *)
Example three_threads_failure :
  observe (run_sched [0; 0; 0; 1; 2; 2]%nat
             [ vips_target_finish Sample.target_end 64;; mret 5;
               vips_cache 128 136 [];
               vips_target_finish Sample.target_end 64;; mret 6 ]
             Sample.world0)
    = inl (LibFail 2).
Proof. vm_compute. reflexivity. Qed.

(** ** Clients linked against the unit *)

Lemma link_peq {A : Type} (f g : Call -> Prog RetVal) (cl : Client A) :
  (forall c, peq (f c) (g c)) -> peq (link f cl) (link g cl).
Proof.
  intros Hfg. induction cl as [a | o k IH | c k IH]; simpl.
  - constructor.
  - constructor. exact IH.
  - apply bind_peq; [apply Hfg | exact IH].
Qed.

Lemma fmap_pool_peq {A B : Type} (f g : A -> Prog B) (l : list A) :
  (forall a, peq (f a) (g a)) -> Forall2 peq (f <$> l) (g <$> l).
Proof.
  intros Hfg. induction l as [| a l IH]; rewrite ?fmap_cons; constructor.
  - apply Hfg.
  - exact IH.
Qed.

(** A thread that has returned, placed after the others, takes no part in
    a step. *)
Lemma step_thread_beside {A : Type} (i : nat) (ts : list (Prog A)) (a : A) (w : World) :
  step_thread i (ts ++ [Ret a]) w = beside (Ret a) (step_thread i ts w).
Proof.
  unfold step_thread.
  destruct (decide (i < length ts)%nat) as [Hlt | Hge].
  - rewrite lookup_app_l by exact Hlt.
    destruct (ts !! i) as [[b | o k] |]; simpl; try reflexivity.
    destruct (do_op o w) as [f | [v w']]; simpl; [reflexivity |].
    rewrite insert_app_l by exact Hlt. reflexivity.
  - rewrite (lookup_ge_None_2 ts i) by lia.
    rewrite lookup_app_r by lia.
    destruct (i - length ts)%nat as [| [| n]]; reflexivity.
Qed.

Lemma run_sched_beside {A : Type} (sched : list nat) (ts : list (Prog A)) (a : A) (w : World) :
  run_sched sched (ts ++ [Ret a]) w = beside (Ret a) (run_sched sched ts w).
Proof.
  revert ts w. induction sched as [| i sched IH]; intros ts w; simpl.
  - reflexivity.
  - rewrite step_thread_beside.
    destruct (step_thread i ts w) as [f | [ts' w']]; simpl; [reflexivity |].
    apply IH.
Qed.

(** X1: a client linked against the unit is the client linked against a
    library that still had the old names, [vips_target_finish] being
    [vips_target_end] and the two removed functions failing with -1.  The
    client may perform operations of its own between the calls and choose
    its next step from what a call handed back; from every state both
    programs end the same way, leave the same state and perform the same
    operations. *)
Theorem link_shim_equiv {A : Type}
    (vips_target_end : addr -> Prog unit) (cl : Client A) :
  peq (link (invoke vips_target_end) cl)
      (link (forwarded_or_sentinel vips_target_end) cl) /\
  forall w : World,
    run (link (invoke vips_target_end) cl) w
      = run (link (forwarded_or_sentinel vips_target_end) cl) w.
Proof.
  assert (peq (link (invoke vips_target_end) cl)
              (link (forwarded_or_sentinel vips_target_end) cl)) as Hpeq
    by apply link_peq, invoke_peq.
  split; [exact Hpeq |].
  intros w. apply run_peq, Hpeq.
Qed.

(** X2: the same for several client threads: under every schedule, the
    threads linked against the unit stop on the same fault, or return the
    same values and leave the same state, as the threads linked against
    the library with the old names. *)
Theorem link_shim_equiv_threads {A : Type}
    (vips_target_end : addr -> Prog unit)
    (cls : list (Client A)) (sched : list nat) (w : World) :
  observe (run_sched sched (link (invoke vips_target_end) <$> cls) w)
    = observe (run_sched sched
                 (link (forwarded_or_sentinel vips_target_end) <$> cls) w).
Proof.
  apply observe_conc_eq, run_sched_peq, fmap_pool_peq.
  intros cl. apply link_peq, invoke_peq.
Qed.

(** X3: a thread that calls a stub, started beside any other threads,
    changes nothing for them: under every schedule the others take the
    same steps, meet the same fault or reach the same programs and state
    as without it, and the added thread holds -1. *)
Theorem stub_thread_beside
    (ts : list (Prog Z)) (in_ : addr) (fd : Z) (out : addr) (va : list cval)
    (sched : list nat) (w : World) :
  run_sched sched (ts ++ [vips_rawsave_fd in_ fd va]) w
    = beside (Ret (-1)) (run_sched sched ts w) /\
  run_sched sched (ts ++ [vips_cache in_ out va]) w
    = beside (Ret (-1)) (run_sched sched ts w).
Proof.
  split.
  - rewrite rawsave_fd_tree. apply run_sched_beside.
  - rewrite cache_tree. apply run_sched_beside.
Qed.

(** X4: a client that only calls the two stubs, however many times and
    whatever it decides from the statuses, performs no operation and
    leaves the state as it was, whatever stands behind [vips_target_end];
    it ends with the value it computes from -1 at every call. *)
Theorem only_stubs_silent {A : Type}
    (vips_target_end : addr -> Prog unit) (cl : Client A) (w : World) :
  only_stubs cl ->
  exists a : A,
    answer_with (RInt (-1)) cl = Some a /\
    run (link (invoke vips_target_end) cl) w = mkResult (inr a) w [].
Proof.
  induction 1 as [a | c k Hc _ IH].
  - exists a. split; reflexivity.
  - destruct (IH (RInt (-1))) as [a [Ha Hrun]].
    exists a. split; [exact Ha |].
    simpl. rewrite (invoke_stub vips_target_end c Hc). exact Hrun.
Qed.

Lemma only_stubs_silent_witness :
  only_stubs SampleClient.fallback /\
  exists a : Z,
    answer_with (RInt (-1)) SampleClient.fallback = Some a /\
    run (link (invoke Sample.target_end) SampleClient.fallback) Sample.world0
      = mkResult (inr a) Sample.world0 [].
Proof.
  assert (only_stubs SampleClient.fallback) as Hfallback.
  { apply only_stubs_Calls; [reflexivity |].
    intros r.
    assert (only_stubs
              (Calls (Call_rawsave_fd 128 3 []) (fun r' : RetVal =>
                 match r' with RInt n => Done n | RVoid => Done 0 end)))
      as Hsave.
    { apply only_stubs_Calls; [reflexivity |].
      intros [| n]; apply only_stubs_Done. }
    destruct r as [| [| p | p]]; [exact Hsave | apply only_stubs_Done | exact Hsave | exact Hsave]. }
  split; [exact Hfallback |].
  apply (only_stubs_silent Sample.target_end SampleClient.fallback Sample.world0).
  exact Hfallback.
Defined.

(** The fallback client ends with -1 and has touched nothing. *)
Example fallback_run :
  run (link (invoke Sample.target_end) SampleClient.fallback) Sample.world0
    = mkResult (inr (-1)) Sample.world0 [].
Proof. reflexivity. Qed.
